(** * Coming-soon landing page (app/page.tsx): model and properties

    The page is one client component file with three React components:
    [Loader], [LandingPage] and the root [App].  Two things in it have
    behaviour beyond markup:

    - the mount effect of [LandingPage], which writes the document title
      and upserts the description meta element of the hosting document;
    - the root [App], which owns the [isLoading] flag, arms a one-shot
      800 ms timeout on mount, clears it on unmount and selects the
      child to render from the flag.

    The hosting document is modelled as a tree of DOM nodes, with
    references into it as child-index paths, so that the element returned
    by [querySelector] and the element written by [setAttribute] are the
    same node.  The markup of the three components is kept as a tree of
    elements with their attributes and their framer-motion props. *)

From Stdlib Require Import QArith.
From stdpp Require Import gmap strings list fin_maps pretty.

Local Open Scope string_scope.
Local Open Scope nat_scope.

#[local] Set Warnings "-register-all".

(** ** The hosting document *)

Module Dom.

(** A DOM node: a text node, or an element with its local name, its
    attributes (names are unique within an element) and its children. *)
Inductive Node :=
| Text (data : string)
| Elem (tag : string) (attrs : gmap string string) (children : list Node).

(** The document: its title (the text of the title element, which
    [document.title] reads and writes), the other children of the head
    element and the children of the body element.  Document order is
    the head's subtree first, then the body's. *)
Record Document := mkDocument {
  title : string;
  head : list Node;
  body : list Node;
}.

(** A reference to a node of a forest: the child indices leading to it.
    The empty path names no node of a forest. *)
Definition Path := list nat.

Inductive Region := InHead | InBody.

(** A reference to a node of the document. *)
Record Ref := mkRef { region : Region; path : Path }.

(** The node [p] steps below [n]; [[]] is [n] itself. *)
Definition node_children (n : Node) : list Node :=
  match n with
  | Elem _ _ c => c
  | Text _ => []
  end.

Fixpoint sub_node (p : Path) (n : Node) : option Node :=
  match p with
  | [] => Some n
  | i :: p' => node_children n !! i ≫= sub_node p'
  end.

Definition node_at (p : Path) (f : list Node) : option Node :=
  match p with
  | [] => None
  | i :: p' => f !! i ≫= sub_node p'
  end.

(** Apply [g] to the node a path refers to, in place; every other node
    keeps its position.  A path that refers to nothing changes nothing. *)
Fixpoint update_node (g : Node → Node) (p : Path) (n : Node) : Node :=
  match p with
  | [] => g n
  | i :: p' =>
      match n with
      | Elem t a c => Elem t a (alter (update_node g p') i c)
      | Text _ => n
      end
  end.

Definition update_at (g : Node → Node) (p : Path) (f : list Node) : list Node :=
  match p with
  | [] => f
  | i :: p' => alter (update_node g p') i f
  end.

(** What a node is by itself, apart from its descendants: its text, or
    its name, attributes and number of children.  A tree is determined
    by the labels at all its paths. *)
Inductive Label :=
| LText (data : string)
| LElem (tag : string) (attrs : gmap string string) (arity : nat).

Definition label (n : Node) : Label :=
  match n with
  | Text s => LText s
  | Elem t a c => LElem t a (length c)
  end.

Definition forest_of (r : Region) (d : Document) : list Node :=
  match r with InHead => head d | InBody => body d end.

Definition deref (r : Ref) (d : Document) : option Node :=
  node_at (path r) (forest_of (region r) d).

Definition update_ref (g : Node → Node) (r : Ref) (d : Document) : Document :=
  match region r with
  | InHead => mkDocument (title d) (update_at g (path r) (head d)) (body d)
  | InBody => mkDocument (title d) (head d) (update_at g (path r) (body d))
  end.

(** [Element.getAttribute] and [Element.setAttribute]. *)
Definition getAttribute (name : string) (n : Node) : option string :=
  match n with
  | Elem _ a _ => a !! name
  | Text _ => None
  end.

Definition setAttribute (name value : string) (n : Node) : Node :=
  match n with
  | Elem t a c => Elem t (<[name := value]> a) c
  | Text _ => n
  end.

(** The compound selector of the page, [meta] with an attribute test on
    [name]: a type selector and one exact attribute-value test. *)
Record Selector := mkSelector {
  sel_tag : string;
  sel_attr : string;
  sel_value : string;
}.

Definition matches (s : Selector) (n : Node) : bool :=
  match n with
  | Elem t a _ =>
      bool_decide (t = sel_tag s) && bool_decide (a !! sel_attr s = Some (sel_value s))
  | Text _ => false
  end.

(** First match among the descendants, in document order (pre-order,
    depth first).  [query_node] returns the path below the node it is
    given, [[]] for the node itself. *)
Fixpoint query_node (s : Selector) (n : Node) : option Path :=
  if matches s n then Some []
  else
    match n with
    | Text _ => None
    | Elem _ _ c =>
        (fix query_children (i : nat) (l : list Node) : option Path :=
           match l with
           | [] => None
           | x :: r =>
               match query_node s x with
               | Some p => Some (i :: p)
               | None => query_children (S i) r
               end
           end) 0 c
    end.

Fixpoint query_from (s : Selector) (i : nat) (l : list Node) : option Path :=
  match l with
  | [] => None
  | x :: r =>
      match query_node s x with
      | Some p => Some (i :: p)
      | None => query_from s (S i) r
      end
  end.

Definition query_forest (s : Selector) (l : list Node) : option Path :=
  query_from s 0 l.

(** [document.querySelector]. *)
Definition querySelector (s : Selector) (d : Document) : option Ref :=
  match query_forest s (head d) with
  | Some p => Some (mkRef InHead p)
  | None =>
      match query_forest s (body d) with
      | Some p => Some (mkRef InBody p)
      | None => None
      end
  end.

(** [document.createElement]: a fresh element without attributes or
    children, not yet in the document. *)
Definition createElement (tag : string) : Node := Elem tag ∅ [].

(** [document.head.appendChild]. *)
Definition appendChild_head (n : Node) (d : Document) : Document :=
  mkDocument (title d) (head d ++ [n]) (body d).

Definition set_title (t : string) (d : Document) : Document :=
  mkDocument t (head d) (body d).

(** Updates that leave the selector's verdict on a node, respectively
    the children of a node, as they were. *)
Definition keeps_match (s : Selector) (g : Node → Node) : Prop :=
  ∀ n, matches s (g n) = matches s n.

Definition keeps_children (g : Node → Node) : Prop :=
  ∀ n, node_children (g n) = node_children n.

End Dom.

(** ** Markup: elements and framer-motion props *)

Module Motion.

(** An easing: one of the library's named curves or a cubic Bezier. *)
Inductive Ease :=
| EaseName (name : string)
| CubicBezier (x1 y1 x2 y2 : Q).

Inductive Repeat :=
| RepeatCount (n : nat)
| RepeatInfinity.

(** A [transition] object; an absent key is [None].  Times are in
    seconds, as the library reads them. *)
Record Transition := mkTransition {
  duration : option Q;
  ease : option Ease;
  repeat : option Repeat;
  delay : option Q;
  staggerChildren : option Q;
  delayChildren : option Q;
}.

(** A target object: the style values to animate to, by property name,
    and the optional [transition] key that sits beside them. *)
Record Target := mkTarget {
  values : gmap string Q;
  target_transition : option Transition;
}.

(** The value of [initial], [animate] or [exit]: a variant label or a
    target object. *)
Inductive Animation :=
| Variant (label : string)
| Values (t : Target).

(** The animation props of a [motion] element. *)
Record Props := mkProps {
  initial : option Animation;
  animate : option Animation;
  exit : option Animation;
  variants : gmap string Target;
  transition : option Transition;
}.

(** A [motion] element without any animation prop. *)
Definition no_props : Props := mkProps None None None ∅ None.

(** The properties a target animates: the keys of the object other
    than [transition]. *)
Definition animated (a : Animation) (vs : gmap string Target) : gmap string Q :=
  match a with
  | Values t => values t
  | Variant l => default ∅ (values <$> vs !! l)
  end.

(** An element declares no animation of its own when it has no
    [initial], [animate] or [exit] and no variants. *)
Definition static (m : Props) : bool :=
  bool_decide (initial m = None) && bool_decide (animate m = None) &&
  bool_decide (exit m = None) && bool_decide (variants m = ∅).

End Motion.

Module Markup.

(** A rendered element tree: text, a number produced by an embedded
    expression, an element (a [motion] element when it carries motion
    props) or a component element with its key and what it renders. *)
Inductive VNode :=
| VText (data : string)
| VNumber (n : Z)
| VElem (tag : string) (motion : option Motion.Props)
        (props : gmap string string) (children : list VNode)
| VComponent (name : string) (key : string) (rendered : VNode).

Definition vchildren (n : VNode) : list VNode :=
  match n with
  | VElem _ _ _ c => c
  | _ => []
  end.

Definition vtag (n : VNode) : option string :=
  match n with
  | VElem t _ _ _ => Some t
  | _ => None
  end.

Definition vprop (k : string) (n : VNode) : option string :=
  match n with
  | VElem _ _ ps _ => ps !! k
  | _ => None
  end.

Definition vmotion (n : VNode) : option Motion.Props :=
  match n with
  | VElem _ m _ _ => m
  | _ => None
  end.

(** All elements of a tree with a given tag, in document order. *)
Fixpoint elements_by_tag (t : string) (n : VNode) : list VNode :=
  match n with
  | VText _ | VNumber _ => []
  | VElem t' _ _ c =>
      (if bool_decide (t' = t) then [n] else [])
        ++ concat (map (elements_by_tag t) c)
  | VComponent _ _ r => elements_by_tag t r
  end.

(** The component elements of a tree (not looking inside them), in
    document order: the components the tree mounts. *)
Fixpoint components (n : VNode) : list (string * string) :=
  match n with
  | VText _ | VNumber _ => []
  | VElem _ _ _ c => concat (map components c)
  | VComponent name key _ => [(name, key)]
  end.

(** The text a tree displays; a number is shown in decimal. *)
Fixpoint textContent (n : VNode) : string :=
  match n with
  | VText s => s
  | VNumber z => pretty z
  | VElem _ _ _ c => foldr (λ x acc, textContent x +:+ acc) "" c
  | VComponent _ _ r => textContent r
  end.

End Markup.

(** ** The components of the page *)

Module Page.
Import Dom.

(** The two literals the mount effect of [LandingPage] writes. *)
Definition page_title : string :=
  "Timothé Fardella | First Blockchain Portfolio Coming Soon".

Definition page_description : string :=
  "My new blockchain portfolio website is currently under construction. Coming soon.".

(** The selector handed to [document.querySelector]: a [meta] element
    whose [name] attribute is [description]. *)
Definition meta_description : Selector := mkSelector "meta" "name" "description".

(** The mount effect of [LandingPage] ([useEffect] with no dependencies),
    as a transformer of the hosting document. *)
Definition LandingPage_effect (d : Document) : Document :=
  let d := set_title page_title d in
  match querySelector meta_description d with
  | Some metaDescription =>
      update_ref (setAttribute "content" page_description) metaDescription d
  | None =>
      let meta := createElement "meta" in
      let meta := setAttribute "name" "description" meta in
      let meta := setAttribute "content" page_description meta in
      appendChild_head meta d
  end.

(** The write of the present branch of the effect. *)
Definition write_content : Node → Node := setAttribute "content" page_description.

(** The element the absent branch of the effect creates and appends. *)
Definition fresh_meta : Node :=
  Elem "meta" (<["content" := page_description]> (<["name" := "description"]> ∅)) [].

(** The description of a document as a reader of its metadata sees it:
    the [content] of the first description meta element. *)
Definition description (d : Document) : option string :=
  r ← querySelector meta_description d;
  n ← deref r d;
  getAttribute "content" n.

(** *** Markup of the components *)

Import Motion Markup.

(** The calendar fields of an instant in local time, as a [Date] object
    gives them; [new Date()] is the instant of the call. *)
Record Date := mkDate {
  getFullYear : Z;
  getMonth : nat;
  getDate : nat;
}.

Definition className (c : string) : gmap string string := {[ "className" := c ]}.

(** [Loader]: the full-viewport overlay with the two-ring spinner. *)
Definition Loader : VNode :=
  VElem "div"
    (Some (mkProps
       (Some (Values (mkTarget {[ "opacity" := 1%Q ]} None)))
       None
       (Some (Values (mkTarget ∅
          (Some (mkTransition (Some 0.8%Q) (Some (EaseName "easeInOut"))
                   None None None None)))))
       ∅ None))
    {[ "className" := "fixed inset-0 z-50 flex items-center justify-center bg-white";
       "role" := "status";
       "aria-live" := "polite";
       "aria-label" := "Loading portfolio" ]}
    [ VElem "div" None (className "relative flex items-center justify-center")
        [ (* Outer Ring *)
          VElem "div" (Some no_props)
            (className "h-12 w-12 border-2 border-neutral-100 rounded-full") [];
          (* Animated Inner Ring *)
          VElem "div"
            (Some (mkProps None
               (Some (Values (mkTarget {[ "rotate" := 360%Q ]} None)))
               None ∅
               (Some (mkTransition (Some 1%Q) (Some (EaseName "linear"))
                        (Some RepeatInfinity) None None None))))
            (className "absolute h-12 w-12 border-t-2 border-neutral-900 rounded-full") []
        ]
    ].

(** The animation variants of [LandingPage]. *)
Definition containerVariants : gmap string Target :=
  {[ "hidden" := mkTarget {[ "opacity" := 0%Q ]} None;
     "visible" := mkTarget {[ "opacity" := 1%Q ]}
        (Some (mkTransition None None None None (Some 0.2%Q) (Some 0.3%Q))) ]}.

Definition itemVariants : gmap string Target :=
  {[ "hidden" := mkTarget {[ "y" := 20%Q; "opacity" := 0%Q ]} None;
     "visible" := mkTarget {[ "y" := 0%Q; "opacity" := 1%Q ]}
        (Some (mkTransition (Some 0.8%Q)
                 (Some (CubicBezier 0.2%Q 0.65%Q 0.3%Q 0.9%Q))
                 None None None None)) ]}.

(** A child of the staggered container: it only carries the variants. *)
Definition item_props : Props := mkProps None None None itemVariants None.

(** [LandingPage], rendered at the instant [now]. *)
Definition LandingPage (now : Date) : VNode :=
  VElem "main" None
    (className "flex min-h-screen w-full flex-col items-center justify-center bg-white px-6 py-12 text-center sm:px-12")
    [ VElem "div"
        (Some (mkProps (Some (Variant "hidden")) (Some (Variant "visible")) None
                 containerVariants None))
        (className "max-w-md space-y-8")
        [ (* Status Indicator *)
          VElem "div" (Some item_props) (className "flex justify-center")
            [ VElem "span" None
                (className "inline-flex items-center rounded-full bg-neutral-100 px-3 py-1 text-xs font-medium uppercase tracking-widest text-neutral-600")
                [ VElem "span" None
                    (className "mr-2 h-2 w-2 animate-pulse rounded-full bg-green-500") [];
                  VText "Under Construction" ] ];
          (* Main Heading *)
          VElem "h1" (Some item_props)
            (className "font-sans text-4xl font-semibold tracking-tight text-neutral-900 sm:text-5xl lg:text-6xl")
            [ VText "Something bold is coming." ];
          (* Subtext *)
          VElem "p" (Some item_props)
            (className "mx-auto max-w-sm text-lg leading-relaxed text-neutral-500")
            [ VText "My new blockchain portfolio website is currently being crafted with care. Check back soon for updates." ];
          (* Action Area *)
          VElem "div" (Some item_props) (className "pt-4")
            [ VElem "a" None
                {[ "href" := "https://github.com/teamssUTXO";
                   "target" := "_blank";
                   "rel" := "noopener noreferrer";
                   "className" := "group inline-flex items-center gap-2 rounded-lg border border-neutral-200 bg-white px-6 py-3 text-sm font-medium text-neutral-900 transition-all hover:border-neutral-900 hover:bg-neutral-50 focus:outline-none focus:ring-2 focus:ring-neutral-900 focus:ring-offset-2";
                   "aria-label" := "Visit my GitHub profile" ]}
                [ VElem "Github" None
                    (className "h-4 w-4 transition-transform group-hover:scale-110") [];
                  VElem "span" None ∅ [ VText "Follow on GitHub" ];
                  VElem "ArrowRight" None
                    (className "h-3 w-3 opacity-0 -translate-x-2 transition-all group-hover:opacity-100 group-hover:translate-x-0") [] ] ]
        ];
      (* Footer / Copyright *)
      VElem "footer"
        (Some (mkProps
           (Some (Values (mkTarget {[ "opacity" := 0%Q ]} None)))
           (Some (Values (mkTarget {[ "opacity" := 1%Q ]} None)))
           None ∅
           (Some (mkTransition (Some 1%Q) None None (Some 1.5%Q) None None))))
        (className "absolute bottom-6 text-xs text-neutral-400")
        [ VText "© ";
          VNumber (getFullYear now);
          VText " Timothé Fardella. All rights reserved." ]
    ].

(** What [App] renders for a value of its [isLoading] state, at the
    instant [now]: the keyed child under [AnimatePresence]. *)
Definition App_render (isLoading : bool) (now : Date) : VNode :=
  VElem "div" None
    (className "font-sans text-neutral-900 antialiased selection:bg-neutral-900 selection:text-white")
    [ VElem "AnimatePresence" None {[ "mode" := "wait" ]}
        [ if isLoading
          then VComponent "Loader" "loader" Loader
          else VComponent "LandingPage" "landing" (LandingPage now) ] ].

End Page.

(** ** The root component and its timer *)

Module Root.

(** A pending timeout of the host: its identifier and the clock value
    at which it is due.  The only callback ever registered is the
    closure of [App]'s effect, which calls [setIsLoading(false)]. *)
Record Timer := mkTimer { timer_id : nat; due : nat }.

(** The host's clock (milliseconds) and timer table, and the one [App]
    instance: the value of its [isLoading] state and the timer
    identifier captured by the cleanup of its effect ([None] once the
    cleanup has run, that is once the component is unmounted). *)
Record State := mkState {
  clock : nat;
  timers : list Timer;
  next_id : nat;
  isLoading : bool;
  cleanup : option nat;
}.

Definition setTimeout (delay : nat) (s : State) : nat * State :=
  (next_id s,
   mkState (clock s) (timers s ++ [mkTimer (next_id s) (clock s + delay)])
     (S (next_id s)) (isLoading s) (cleanup s)).

Definition clearTimeout (id : nat) (s : State) : State :=
  mkState (clock s) (filter (λ t, timer_id t ≠ id) (timers s))
    (next_id s) (isLoading s) (cleanup s).

Definition setIsLoading (b : bool) (s : State) : State :=
  mkState (clock s) (timers s) (next_id s) b (cleanup s).

(** Mounting [App] on a host whose clock reads [t0] and whose next free
    timer identifier is [n0]: [useState(true)], then the effect, which
    arms the timeout and leaves its cleanup behind. *)
Definition App_mount (t0 n0 : nat) : State :=
  let s := mkState t0 [] n0 true None in
  let '(timer, s) := setTimeout 800 s in
  mkState (clock s) (timers s) (next_id s) (isLoading s) (Some timer).

(** Unmounting runs the cleanup of the effect, once. *)
Definition App_unmount (s : State) : State :=
  match cleanup s with
  | Some timer =>
      let s := clearTimeout timer s in
      mkState (clock s) (timers s) (next_id s) (isLoading s) None
  | None => s
  end.

(** The host runs the callback of every timer that is due and drops
    those timers from the table. *)
Definition fire (s : State) : State :=
  let ready := filter (λ t, due t ≤ clock s) (timers s) in
  let rest := filter (λ t, clock s < due t) (timers s) in
  foldl (λ s _, setIsLoading false s)
    (mkState (clock s) rest (next_id s) (isLoading s) (cleanup s)) ready.

Definition advance (dt : nat) (s : State) : State :=
  fire (mkState (clock s + dt) (timers s) (next_id s) (isLoading s) (cleanup s)).

Inductive Event :=
| Advance (dt : nat)
| Unmount.

Definition step (s : State) (e : Event) : State :=
  match e with
  | Advance dt => advance dt s
  | Unmount => App_unmount s
  end.

Definition run (s : State) (evs : list Event) : State := foldl step s evs.

(** The states a run goes through, the first one included. *)
Fixpoint trace (s : State) (evs : list Event) : list State :=
  s :: match evs with
       | [] => []
       | e :: evs' => trace (step s e) evs'
       end.

(** The time a list of events lets pass. *)
Fixpoint elapsed (evs : list Event) : nat :=
  match evs with
  | [] => 0
  | Advance dt :: evs' => dt + elapsed evs'
  | Unmount :: evs' => elapsed evs'
  end.

(** How many times a sequence of flag values changes. *)
Fixpoint flips (l : list bool) : nat :=
  match l with
  | a :: r =>
      match r with
      | b :: _ => (if bool_decide (a = b) then 0 else 1) + flips r
      | [] => 0
      end
  | [] => 0
  end.

(** The two states of the controller. *)
Inductive Phase := loading | ready.

Definition phase (s : State) : Phase :=
  if isLoading s then loading else ready.

(** The views [App] has selected in a state. *)
Definition views (s : State) (now : Page.Date) : list (string * string) :=
  Markup.components (Page.App_render (isLoading s) now).

(** Until the deadline [d]: the flag is up and the table holds at most
    the timer of the effect, which is there exactly while the cleanup
    is. *)
Definition Live (d : nat) (s : State) : Prop :=
  isLoading s = true ∧ clock s < d ∧
  ((∃ id, cleanup s = Some id ∧ timers s = [mkTimer id d]) ∨
   (cleanup s = None ∧ timers s = [])).

(** Unmounted while loading: nothing is pending. *)
Definition Cancelled (s : State) : Prop :=
  isLoading s = true ∧ cleanup s = None ∧ timers s = [].

End Root.

(** ** Sample inputs *)

Module Samples.
Import Dom.

(** A document whose head has no description and whose body holds two
    description meta elements below a container. *)
Definition sample_document : Document :=
  mkDocument "Old title"
    [ Elem "meta" {[ "charset" := "utf-8" ]} [];
      Elem "meta" {[ "name" := "viewport"; "content" := "width=device-width" ]} [] ]
    [ Elem "div" {[ "id" := "root" ]}
        [ Text "hi";
          Elem "meta" {[ "name" := "description"; "content" := "old one" ]} [];
          Elem "meta" {[ "name" := "description"; "content" := "second" ]} [] ] ].

Definition empty_document : Document := mkDocument "" [] [].

End Samples.

(** ** Counting matches *)

Module Census.
Import Dom.

(** How many nodes of a subtree, of a forest, of the document a
    selector accepts ([querySelectorAll(...).length]). *)
Fixpoint count_node (s : Selector) (n : Node) : nat :=
  (if matches s n then 1 else 0) +
  match n with
  | Text _ => 0
  | Elem _ _ c => sum_list_with (count_node s) c
  end.

Definition count_forest (s : Selector) (f : list Node) : nat :=
  sum_list_with (count_node s) f.

Definition count_document (s : Selector) (d : Document) : nat :=
  count_forest s (head d) + count_forest s (body d).

End Census.

(** ** The effect of the root, by itself *)

Module Effect.
Import Root.

(** The body of [App]'s effect on a host state: arm the timeout and
    keep the cleanup that clears it.  React runs it on mount, and again
    after a cleanup when it replays effects. *)
Definition App_effect (s : State) : State :=
  let '(timer, s) := setTimeout 800 s in
  mkState (clock s) (timers s) (next_id s) (isLoading s) (Some timer).

(** The time a list of events lets pass before its first unmount. *)
Fixpoint elapsed_mounted (evs : list Event) : nat :=
  match evs with
  | [] => 0
  | Advance dt :: evs' => dt + elapsed_mounted evs'
  | Unmount :: _ => 0
  end.

(** Every pending timer was handed out by the host before. *)
Definition fresh_ids (s : State) : Prop :=
  Forall (λ t, timer_id t < next_id s) (timers s).

(** Nothing is pending, and the flag is only still up if the
    component is unmounted: the timer has fired or was cleared. *)
Definition Idle (s : State) : Prop :=
  timers s = [] ∧ (isLoading s = true → cleanup s = None).

(** A host state as it is but for the reading of the clock. *)
Definition at_clock (c : nat) (s : State) : State :=
  mkState c (timers s) (next_id s) (isLoading s) (cleanup s).

End Effect.

(** ** The page as a whole: root, presence and document *)

Module Whole.
Import Dom Page Root.

(** The root on its host, the hosting document, and whether
    [LandingPage] is mounted. *)
Record System := mkSystem {
  root : State;
  document : Document;
  landing : bool;
}.

(** What can happen: an event of the host, or [AnimatePresence]
    finishing the exit of the outgoing child, upon which it mounts the
    child the root has selected (mode [wait]). *)
Inductive SysEvent :=
| Host (e : Event)
| ExitComplete.

Definition root_mounted (r : State) : bool := bool_decide (is_Some (cleanup r)).

(** The root is mounted and its render selects [LandingPage]. *)
Definition selects_landing (r : State) : bool :=
  root_mounted r && negb (isLoading r).


(** A host event moves the root; unmounting the root unmounts what is
    below it.  Mounting [LandingPage] runs its effect, once per mount. *)
Definition sys_step (sys : System) (ev : SysEvent) : System :=
  match ev with
  | Host e =>
      let r := step (root sys) e in
      mkSystem r (document sys) (landing sys && root_mounted r)
  | ExitComplete =>
      if selects_landing (root sys) && negb (landing sys)
      then mkSystem (root sys) (LandingPage_effect (document sys)) true
      else sys
  end.

Definition sys_run (sys : System) (evs : list SysEvent) : System :=
  foldl sys_step sys evs.



End Whole.

(** ** Which views are mounted *)

Module Presence.
Import Root Whole.

(** The page together with whether [Loader] is mounted.  [Loader] is
    mounted with the root; when the root's render stops selecting it,
    [AnimatePresence] (mode [wait]) keeps it mounted until its exit
    completes and only then mounts [LandingPage]. *)
Record Stage := mkStage {
  page : System;
  loader : bool;
}.


(** Unmounting the root unmounts [Loader]; a completed exit unmounts it
    when it was the outgoing child, that is when the root is mounted and
    selects [LandingPage]. *)
Definition stage_step (st : Stage) (ev : SysEvent) : Stage :=
  mkStage (sys_step (page st) ev)
    match ev with
    | Host e => loader st && root_mounted (step (root (page st)) e)
    | ExitComplete => loader st && negb (selects_landing (root (page st)))
    end.

Definition stage_run (st : Stage) (evs : list SysEvent) : Stage :=
  foldl stage_step st evs.



End Presence.

(** * Properties *)

(** ** Facts about the document model *)

Section DomFacts.
Import Dom.

Lemma query_node_Elem s t a c :
  query_node s (Elem t a c) =
  if matches s (Elem t a c) then Some [] else query_from s 0 c.
Proof.
  simpl. destruct (_ && _); [done|].
  generalize 0. induction c as [|x r IH]; intros i; simpl; [done|].
  destruct (query_node s x); [done|]. apply IH.
Qed.

Lemma query_node_unfold s n :
  query_node s n =
  if matches s n then Some [] else query_from s 0 (node_children n).
Proof.
  destruct n as [d|t a c]; [done|]. apply query_node_Elem.
Qed.

(** What [query_from] finds: the first child with a match in its
    subtree, and the match inside it. *)
Lemma query_from_Some s i l p :
  query_from s i l = Some p ↔
  ∃ j x q, p = (i + j) :: q ∧ l !! j = Some x ∧ query_node s x = Some q ∧
           ∀ k y, k < j → l !! k = Some y → query_node s y = None.
Proof.
  revert i. induction l as [|x r IH]; intros i; simpl.
  - split; [done|]. intros (j & y & q & _ & Hl & _). done.
  - destruct (query_node s x) as [q|] eqn:Hx.
    + split.
      * intros [= <-]. exists 0, x, q. rewrite Nat.add_0_r.
        repeat split; try done. intros k y Hk. lia.
      * intros (j & y & q' & -> & Hl & Hq & Hlt).
        destruct j as [|j].
        -- simpl in Hl. simplify_eq. by rewrite Nat.add_0_r.
        -- specialize (Hlt 0 x). rewrite Hlt in Hx; [done|lia|done].
    + rewrite IH. split.
      * intros (j & y & q & -> & Hl & Hq & Hlt).
        exists (S j), y, q. repeat split; try done.
        -- f_equal. lia.
        -- intros [|k] z Hk Hz; simpl in Hz.
           ++ congruence.
           ++ apply (Hlt k); [lia|done].
      * intros (j & y & q & -> & Hl & Hq & Hlt).
        destruct j as [|j]; simpl in Hl.
        -- congruence.
        -- exists j, y, q. repeat split; try done.
           ++ f_equal. lia.
           ++ intros k z Hk Hz. apply (Hlt (S k)); [lia|done].
Qed.

Lemma query_from_None s i l :
  query_from s i l = None ↔ ∀ k y, l !! k = Some y → query_node s y = None.
Proof.
  revert i. induction l as [|x r IH]; intros i; simpl.
  - split; [|done]. intros _ k y. by rewrite lookup_nil.
  - destruct (query_node s x) as [q|] eqn:Hx.
    + split; [done|]. intros H. specialize (H 0 x eq_refl). congruence.
    + rewrite IH. split.
      * intros H [|k] y Hy; simpl in Hy; [congruence|]. by eapply H.
      * intros H k y Hy. by apply (H (S k)).
Qed.

Lemma setAttribute_keeps_match s k v :
  k ≠ sel_attr s → keeps_match s (setAttribute k v).
Proof.
  intros Hk [d|t a c]; simpl; [done|].
  by rewrite lookup_insert_ne.
Qed.

Lemma setAttribute_keeps_children k v : keeps_children (setAttribute k v).
Proof. by intros [d|t a c]. Qed.

Lemma setAttribute_idemp k v n :
  setAttribute k v (setAttribute k v n) = setAttribute k v n.
Proof. destruct n as [d|t a c]; simpl; [done|]. by rewrite insert_insert_eq. Qed.

Lemma query_node_nil s n : query_node s n = Some [] → matches s n = true.
Proof.
  rewrite query_node_unfold. destruct (matches s n); [done|].
  intros H. apply query_from_Some in H as (j & x & q & [=] & _).
Qed.

Lemma query_node_cons s n i p :
  query_node s n = Some (i :: p) →
  matches s n = false ∧ query_from s 0 (node_children n) = Some (i :: p).
Proof. rewrite query_node_unfold. by destruct (matches s n). Qed.

(** The element a query returns is still the first match after it has
    been updated in a way the selector does not see. *)
Lemma query_node_update s g p n :
  keeps_match s g →
  query_node s n = Some p → query_node s (update_node g p n) = Some p.
Proof.
  intros Hg. revert n. induction p as [|i p IH]; intros n Hq; simpl.
  - apply query_node_nil in Hq. rewrite query_node_unfold, Hg, Hq. done.
  - apply query_node_cons in Hq as [Hm Hq].
    destruct n as [d|t a c]; simpl in Hq; [done|].
    rewrite query_node_Elem. simpl in Hm |- *. rewrite Hm.
    apply query_from_Some in Hq as (j & x & q & [= -> ->] & Hx & Hqx & Hlt).
    apply query_from_Some. exists j, (update_node g q x), q.
    repeat split.
    + by rewrite list_lookup_alter_eq, Hx.
    + by apply IH.
    + intros k y Hk. rewrite list_lookup_alter_ne by lia. by apply Hlt.
Qed.

Lemma query_from_update s g i p f :
  keeps_match s g →
  query_from s i f = Some p →
  query_from s i (alter (update_node g (tail p)) (hd 0 p - i) f) = Some p.
Proof.
  intros Hg Hq.
  apply query_from_Some in Hq as (j & x & q & -> & Hx & Hqx & Hlt).
  simpl. replace (i + j - i) with j by lia.
  apply query_from_Some. exists j, (update_node g q x), q.
  repeat split.
  - by rewrite list_lookup_alter_eq, Hx.
  - by apply query_node_update.
  - intros k y Hk. rewrite list_lookup_alter_ne by lia. by apply Hlt.
Qed.

Lemma query_forest_update s g p f :
  keeps_match s g →
  query_forest s f = Some p → query_forest s (update_at g p f) = Some p.
Proof.
  unfold query_forest. intros Hg Hq.
  pose proof (query_from_update s g 0 p f Hg Hq) as H.
  destruct p as [|i p]; simpl in *.
  - apply query_from_Some in Hq as (j & x & q & [=] & _).
  - by rewrite Nat.sub_0_r in H.
Qed.

(** Appending a matching element to a forest without a match makes
    it the first match. *)
Lemma query_forest_snoc s f m :
  query_forest s f = None → matches s m = true →
  query_forest s (f ++ [m]) = Some [length f].
Proof.
  unfold query_forest. intros Hf Hm.
  apply query_from_Some. exists (length f), m, [].
  repeat split.
  - by rewrite list_lookup_middle.
  - by rewrite query_node_unfold, Hm.
  - intros k y Hk. rewrite lookup_app_l by done.
    by apply (proj1 (query_from_None s 0 f) Hf).
Qed.

(** Reading through a reference after an update through the same one. *)
Lemma sub_node_update_eq g p n :
  sub_node p (update_node g p n) = g <$> sub_node p n.
Proof.
  revert n. induction p as [|i p IH]; intros n; simpl; [done|].
  destruct n as [d|t a c]; simpl; [done|].
  rewrite list_lookup_alter_eq.
  destruct (c !! i) as [x|]; simpl; [apply IH|done].
Qed.

(** Reading through any other reference: the node found there is, by
    itself, what it was. *)
Lemma sub_node_update_ne g p q n :
  keeps_children g → q ≠ p →
  label <$> sub_node q (update_node g p n) = label <$> sub_node q n.
Proof.
  intros Hg. revert q n. induction p as [|i p IH]; intros q n Hne; simpl.
  - destruct q as [|j q]; [done|]. simpl. by rewrite Hg.
  - destruct n as [d|t a c]; [done|].
    destruct q as [|j q]; simpl.
    + by rewrite length_alter.
    + destruct (decide (i = j)) as [->|Hij].
      * rewrite list_lookup_alter_eq.
        destruct (c !! j) as [x|]; simpl; [|done].
        apply IH. congruence.
      * by rewrite list_lookup_alter_ne.
Qed.

Lemma node_at_update_eq g p f :
  node_at p (update_at g p f) = g <$> node_at p f.
Proof.
  destruct p as [|i p]; simpl; [done|].
  rewrite list_lookup_alter_eq.
  destruct (f !! i) as [x|]; simpl; [apply sub_node_update_eq|done].
Qed.

Lemma node_at_update_ne g p q f :
  keeps_children g → q ≠ p →
  label <$> node_at q (update_at g p f) = label <$> node_at q f.
Proof.
  intros Hg Hne. destruct p as [|i p]; simpl; [done|].
  destruct q as [|j q]; simpl; [done|].
  destruct (decide (i = j)) as [->|Hij].
  - rewrite list_lookup_alter_eq.
    destruct (f !! j) as [x|]; simpl; [|done].
    apply sub_node_update_ne; [done|congruence].
  - by rewrite list_lookup_alter_ne.
Qed.

Lemma update_node_idemp g p n :
  (∀ m, g (g m) = g m) →
  update_node g p (update_node g p n) = update_node g p n.
Proof.
  intros Hg. revert n. induction p as [|i p IH]; intros n; simpl; [done|].
  destruct n as [d|t a c]; [done|].
  f_equal. rewrite list_alter_alter_eq.
  apply list_alter_ext; [|done]. intros x _. apply IH.
Qed.

Lemma update_at_idemp g p f :
  (∀ m, g (g m) = g m) →
  update_at g p (update_at g p f) = update_at g p f.
Proof.
  intros Hg. destruct p as [|i p]; simpl; [done|].
  rewrite list_alter_alter_eq.
  apply list_alter_ext; [|done]. intros x _. by apply update_node_idemp.
Qed.

(** A query returns a reference to an element the selector accepts. *)
Lemma query_node_sound s n p :
  query_node s n = Some p → ∃ m, sub_node p n = Some m ∧ matches s m = true.
Proof.
  revert n. induction p as [|i p IH]; intros n Hq.
  - exists n. split; [done|]. by apply query_node_nil.
  - apply query_node_cons in Hq as [_ Hq].
    apply query_from_Some in Hq as (j & x & q & [= -> ->] & Hx & Hqx & _).
    simpl. rewrite Hx. simpl. by apply IH.
Qed.

Lemma query_forest_sound s f p :
  query_forest s f = Some p → ∃ m, node_at p f = Some m ∧ matches s m = true.
Proof.
  unfold query_forest. intros Hq.
  apply query_from_Some in Hq as (j & x & q & -> & Hx & Hqx & _).
  simpl. rewrite Hx. simpl. by apply query_node_sound.
Qed.

End DomFacts.

(** ** The metadata effect of [LandingPage] *)

Section MetadataEffect.
Import Dom Page.

Lemma querySelector_set_title s t d :
  querySelector s (set_title t d) = querySelector s d.
Proof. done. Qed.

Lemma write_content_keeps_match : keeps_match meta_description write_content.
Proof. by apply setAttribute_keeps_match. Qed.

Lemma fresh_meta_matches : matches meta_description fresh_meta = true.
Proof. done. Qed.

Lemma write_content_fresh_meta : write_content fresh_meta = fresh_meta.
Proof. unfold write_content, fresh_meta. simpl. by rewrite insert_insert_eq. Qed.

Lemma querySelector_None s d :
  querySelector s d = None ↔
  query_forest s (head d) = None ∧ query_forest s (body d) = None.
Proof.
  unfold querySelector.
  destruct (query_forest s (head d)), (query_forest s (body d));
    split; try done; intros [? ?]; done.
Qed.

(** The two branches of the effect. *)
Lemma LandingPage_effect_present d r :
  querySelector meta_description d = Some r →
  LandingPage_effect d = update_ref write_content r (set_title page_title d).
Proof.
  intros H. unfold LandingPage_effect. by rewrite querySelector_set_title, H.
Qed.

Lemma LandingPage_effect_absent d :
  querySelector meta_description d = None →
  LandingPage_effect d = appendChild_head fresh_meta (set_title page_title d).
Proof.
  intros H. unfold LandingPage_effect. by rewrite querySelector_set_title, H.
Qed.

(** After an in-place write the query returns the same reference. *)
Lemma querySelector_update_ref s g r d :
  keeps_match s g →
  querySelector s d = Some r → querySelector s (update_ref g r d) = Some r.
Proof.
  intros Hg. unfold querySelector, update_ref.
  destruct (query_forest s (head d)) as [p|] eqn:Hh.
  - intros [= <-]. simpl. by rewrite (query_forest_update s g p _ Hg Hh).
  - destruct (query_forest s (body d)) as [p|] eqn:Hb; [|done].
    intros [= <-]. simpl. by rewrite Hh, (query_forest_update s g p _ Hg Hb).
Qed.

Lemma querySelector_sound s d r :
  querySelector s d = Some r → ∃ m, deref r d = Some m ∧ matches s m = true.
Proof.
  unfold querySelector, deref.
  destruct (query_forest s (head d)) as [p|] eqn:Hh.
  - intros [= <-]. by apply query_forest_sound.
  - destruct (query_forest s (body d)) as [p|] eqn:Hb; [|done].
    intros [= <-]. by apply query_forest_sound.
Qed.

Lemma deref_update_ref_eq g r d :
  deref r (update_ref g r d) = g <$> deref r d.
Proof.
  destruct r as [[] p]; unfold deref, update_ref; simpl; apply node_at_update_eq.
Qed.

Lemma deref_update_ref_ne g r q d :
  keeps_children g → q ≠ r →
  label <$> deref q (update_ref g r d) = label <$> deref q d.
Proof.
  intros Hg Hne.
  destruct r as [[] p], q as [[] p']; unfold deref, update_ref; simpl;
    try done; apply node_at_update_ne; congruence.
Qed.

Lemma update_ref_idemp g r d :
  (∀ m, g (g m) = g m) → update_ref g r (update_ref g r d) = update_ref g r d.
Proof.
  intros Hg. destruct r as [[] p]; unfold update_ref; simpl;
    by rewrite update_at_idemp.
Qed.

Lemma querySelector_appended d :
  querySelector meta_description d = None →
  querySelector meta_description (appendChild_head fresh_meta d)
  = Some (mkRef InHead [length (head d)]).
Proof.
  intros [Hh _]%querySelector_None. unfold querySelector. simpl.
  by rewrite query_forest_snoc.
Qed.

(** C3: once the mount effect of the content view has run, the document
    title is the fixed title literal and the description metadata of the
    document (the content of its first description meta element) is the
    fixed description literal, whatever the title was before and whether
    or not a description meta element existed. *)
Theorem LandingPage_effect_metadata (d : Document) :
  title (LandingPage_effect d)
    = "Timothé Fardella | First Blockchain Portfolio Coming Soon" ∧
  description (LandingPage_effect d)
    = Some "My new blockchain portfolio website is currently under construction. Coming soon.".
Proof.
  destruct (querySelector meta_description d) as [r|] eqn:Hq.
  - rewrite (LandingPage_effect_present d r Hq). split.
    + by destruct r as [[] p].
    + unfold description.
      rewrite (querySelector_update_ref _ _ r _ write_content_keeps_match)
        by done.
      simpl. rewrite deref_update_ref_eq.
      destruct (querySelector_sound _ _ _ Hq) as (m & Hm & Hmatch).
      change (deref r (set_title page_title d)) with (deref r d).
      rewrite Hm. simpl. destruct m as [s|t a c]; [done|].
      simpl. by rewrite lookup_insert_eq.
  - rewrite (LandingPage_effect_absent d Hq). split; [done|].
    unfold description.
    rewrite querySelector_appended by done. simpl.
    unfold deref. simpl. by rewrite list_lookup_middle.
Qed.

(** C5: the mount effect is idempotent on the document: run twice in a
    row it leaves the document as one run does, and the second run finds
    the description element and writes it in place instead of creating
    another one. *)
Theorem LandingPage_effect_idempotent (d : Document) :
  LandingPage_effect (LandingPage_effect d) = LandingPage_effect d ∧
  ∃ r, querySelector meta_description (LandingPage_effect d) = Some r ∧
       LandingPage_effect (LandingPage_effect d)
       = update_ref (setAttribute "content" page_description) r
           (LandingPage_effect d).
Proof.
  destruct (querySelector meta_description d) as [r|] eqn:Hq.
  - rewrite (LandingPage_effect_present d r Hq).
    set (d1 := update_ref write_content r (set_title page_title d)).
    assert (H1 : querySelector meta_description d1 = Some r)
      by (by apply querySelector_update_ref; [apply write_content_keeps_match|]).
    assert (Ht : set_title page_title d1 = d1) by (by destruct r as [[] p]).
    rewrite (LandingPage_effect_present d1 r H1), Ht.
    split; [|by exists r].
    apply update_ref_idemp, setAttribute_idemp.
  - rewrite (LandingPage_effect_absent d Hq).
    set (d1 := appendChild_head fresh_meta (set_title page_title d)).
    assert (H1 : querySelector meta_description d1
                 = Some (mkRef InHead [length (head d)]))
      by (apply (querySelector_appended (set_title page_title d)); exact Hq).
    rewrite (LandingPage_effect_present d1 _ H1).
    split; [|by eexists].
    unfold update_ref, d1. simpl.
    replace (length (head d)) with (length (head d) + 0) by lia.
    rewrite alter_app_r.
    exact (f_equal (λ x, mkDocument page_title (head d ++ [x]) (body d))
             write_content_fresh_meta).
Qed.

(** C10: the mount effect touches the title and one description meta
    element only.  When the document has no description meta element,
    exactly one new meta element is appended to the head and the body is
    as before.  When it has one, the first of them keeps its name and
    children and every attribute but [content]; every other node of the
    head and of the body, including every other meta element, is by
    itself what it was (same text, or same name, attributes and number of
    children) and stays at its place. *)
Theorem LandingPage_effect_frame (d : Document) :
  match querySelector meta_description d with
  | None =>
      head (LandingPage_effect d)
        = (head d ++ [Elem "meta" {[ "name" := "description";
                                     "content" := page_description ]} []])%list ∧
      body (LandingPage_effect d) = body d
  | Some r =>
      (∃ t a c,
          deref r d = Some (Elem t a c) ∧
          deref r (LandingPage_effect d)
            = Some (Elem t (<["content" := page_description]> a) c) ∧
          ∀ k, k ≠ "content" →
               (<["content" := page_description]> a) !! k = a !! k) ∧
      (∀ q, q ≠ r →
            label <$> deref q (LandingPage_effect d) = label <$> deref q d)
  end.
Proof.
  destruct (querySelector meta_description d) as [r|] eqn:Hq.
  - rewrite (LandingPage_effect_present d r Hq). split.
    + destruct (querySelector_sound _ _ _ Hq) as (m & Hm & Hmatch).
      destruct m as [s|t a c]; [done|].
      exists t, a, c. split; [done|]. split.
      * rewrite deref_update_ref_eq.
        change (deref r (set_title page_title d)) with (deref r d).
        by rewrite Hm.
      * intros k Hk. by rewrite lookup_insert_ne.
    + intros q Hne.
      rewrite deref_update_ref_ne; [done| |done].
      apply setAttribute_keeps_children.
  - rewrite (LandingPage_effect_absent d Hq). simpl. split; [|done].
    do 2 f_equal.
Qed.

Lemma LandingPage_effect_frame_witness :
  label <$> deref (mkRef InBody [0; 2]) (LandingPage_effect Samples.sample_document)
  = label <$> deref (mkRef InBody [0; 2]) Samples.sample_document.
Proof.
  exact (proj2 (LandingPage_effect_frame Samples.sample_document)
           (mkRef InBody [0; 2]) ltac:(discriminate)).
Defined.

Example LandingPage_effect_empty_document :
  LandingPage_effect Samples.empty_document
  = mkDocument page_title [fresh_meta] [].
Proof. reflexivity. Qed.

Example LandingPage_effect_sample_document :
  querySelector meta_description Samples.sample_document
    = Some (mkRef InBody [0; 1]) ∧
  description Samples.sample_document = Some "old one" ∧
  description (LandingPage_effect Samples.sample_document)
    = Some page_description ∧
  (deref (mkRef InBody [0; 2]) (LandingPage_effect Samples.sample_document)
     ≫= getAttribute "content") = Some "second" ∧
  head (LandingPage_effect Samples.sample_document)
    = head Samples.sample_document.
Proof. by vm_compute. Qed.

End MetadataEffect.

(** ** The root component: loading flag and timer *)

Section RootFacts.
Import Root.

Lemma foldl_setIsLoading {A} (s : State) (l : list A) :
  foldl (λ s _, setIsLoading false s) s l
  = mkState (clock s) (timers s) (next_id s)
      (match l with [] => isLoading s | _ => false end) (cleanup s).
Proof.
  revert s. induction l as [|x l IH]; intros s; simpl.
  - by destruct s.
  - rewrite IH. simpl. by destruct l.
Qed.

Lemma advance_eq dt s :
  advance dt s
  = mkState (clock s + dt)
      (filter (λ t, clock s + dt < due t) (timers s)) (next_id s)
      (match filter (λ t, due t ≤ clock s + dt) (timers s) with
       | [] => isLoading s
       | _ => false
       end) (cleanup s).
Proof. unfold advance, fire. by rewrite foldl_setIsLoading. Qed.

(** No step raises the flag. *)
Lemma step_keeps_false s e : isLoading s = false → isLoading (step s e) = false.
Proof.
  intros H. destruct e as [dt|]; simpl.
  - rewrite advance_eq. simpl. rewrite H. by destruct (filter _ _).
  - unfold App_unmount. by destruct (cleanup s).
Qed.

Lemma run_keeps_false s evs : isLoading s = false → isLoading (run s evs) = false.
Proof.
  revert s. induction evs as [|e evs IH]; intros s H; simpl; [done|].
  by apply IH, step_keeps_false.
Qed.

Lemma run_app s evs evs' : run s (evs ++ evs') = run (run s evs) evs'.
Proof. apply foldl_app. Qed.

(** Along a run that starts with the flag up, the flag changes once if
    the run ends with the flag down, and never otherwise. *)
Lemma flips_trace s evs :
  flips (isLoading <$> trace s evs)
  = if isLoading s then (if isLoading (run s evs) then 0 else 1) else 0.
Proof.
  revert s. induction evs as [|e evs IH]; intros s.
  - simpl. by destruct (isLoading s).
  - change (flips (isLoading <$> trace s (e :: evs)))
      with (match isLoading <$> trace (step s e) evs with
            | b :: _ => (if bool_decide (isLoading s = b) then 0 else 1)
                        + flips (isLoading <$> trace (step s e) evs)
            | [] => 0
            end).
    rewrite IH. change (run s (e :: evs)) with (run (step s e) evs).
    destruct evs as [|e' evs]; simpl;
      destruct (isLoading s) eqn:Hs.
    + by destruct (isLoading (step s e)).
    + by rewrite (step_keeps_false s e Hs).
    + destruct (isLoading (step s e)) eqn:Hs'; simpl; [done|].
      by rewrite (run_keeps_false (step (step s e) e') evs)
        by (by apply step_keeps_false).
    + by rewrite (step_keeps_false s e Hs).
Qed.

Lemma Live_mount t0 n0 : Live (t0 + 800) (App_mount t0 n0).
Proof. repeat split; simpl; [lia|]. left. by exists n0. Qed.

Lemma Live_advance d s dt :
  Live d s → clock s + dt < d → Live d (advance dt s).
Proof.
  intros (Hl & Hc & Ht) Hlt. rewrite advance_eq.
  destruct Ht as [(id & Hid & Ht)|[Hid Ht]]; rewrite Ht.
  - rewrite filter_cons_True by (simpl; lia).
    rewrite filter_cons_False by (simpl; lia).
    repeat split; simpl; [done|done|]. left. by exists id.
  - repeat split; simpl; [done|done|]. by right.
Qed.

Lemma advance_fires d s dt :
  Live d s → is_Some (cleanup s) → d ≤ clock s + dt →
  isLoading (advance dt s) = false.
Proof.
  intros (Hl & Hc & Ht) [id Hid] Hle. rewrite advance_eq.
  destruct Ht as [(id' & _ & Ht)|[Hn _]]; [|congruence].
  rewrite Ht. simpl. by rewrite filter_cons_True by (simpl; lia).
Qed.

Lemma unmount_cancels d s : Live d s → Cancelled (App_unmount s).
Proof.
  intros (Hl & Hc & Ht). unfold App_unmount.
  destruct Ht as [(id & Hid & Ht)|[Hid Ht]]; rewrite Hid.
  - repeat split; simpl; [done|]. rewrite Ht.
    by rewrite filter_cons_False by (by intros []).
  - done.
Qed.

Lemma Live_unmount d s : Live d s → Live d (App_unmount s).
Proof.
  intros H. destruct (unmount_cancels d s H) as (Hl & Hc & Ht).
  destruct H as (_ & Hclock & _).
  repeat split; [done| |by right].
  unfold App_unmount. destruct (cleanup s); done.
Qed.

Lemma Live_run d s evs :
  Live d s → clock s + elapsed evs < d → Live d (run s evs).
Proof.
  revert s. induction evs as [|[dt|] evs IH]; intros s H Hlt; simpl in *.
  - done.
  - apply IH.
    + apply Live_advance; [done|lia].
    + rewrite advance_eq. simpl. lia.
  - apply IH; [by apply Live_unmount|].
    unfold App_unmount. destruct (cleanup s); simpl; lia.
Qed.

Lemma Cancelled_step s e : Cancelled s → Cancelled (step s e).
Proof.
  intros (Hl & Hc & Ht). destruct e as [dt|]; simpl.
  - rewrite advance_eq, Ht. simpl. by repeat split.
  - unfold App_unmount. rewrite Hc. by repeat split.
Qed.

Lemma Cancelled_run s evs : Cancelled s → Cancelled (run s evs).
Proof.
  revert s. induction evs as [|e evs IH]; intros s H; simpl; [done|].
  by apply IH, Cancelled_step.
Qed.

(** With the component mounted throughout, the flag is up exactly
    until the clock reaches the deadline. *)
Lemma run_advances d s dts :
  Live d s → is_Some (cleanup s) →
  isLoading (run s (Advance <$> dts)) = bool_decide (clock s + sum_list dts < d).
Proof.
  revert s. induction dts as [|dt dts IH]; intros s H Hm; simpl.
  - destruct H as (Hl & Hc & _). rewrite Hl.
    symmetry. apply bool_decide_eq_true. lia.
  - destruct (decide (clock s + dt < d)) as [Hlt|Hge].
    + rewrite IH.
      * rewrite advance_eq. simpl. apply bool_decide_ext. lia.
      * by apply Live_advance.
      * by rewrite advance_eq.
    + rewrite run_keeps_false
        by (apply (advance_fires d); [done|done|lia]).
      symmetry. apply bool_decide_eq_false. lia.
Qed.

(** The clock only moves with the events, and no step registers a timer. *)
Lemma elapsed_app evs evs' : elapsed (evs ++ evs') = elapsed evs + elapsed evs'.
Proof. induction evs as [|[dt|] evs IH]; simpl; lia. Qed.

Lemma clock_run s evs : clock (run s evs) = clock s + elapsed evs.
Proof.
  revert s. induction evs as [|[dt|] evs IH]; intros s; simpl.
  - lia.
  - rewrite IH, advance_eq. simpl. lia.
  - rewrite IH. unfold App_unmount. by destruct (cleanup s).
Qed.

Lemma next_id_run s evs : next_id (run s evs) = next_id s.
Proof.
  revert s. induction evs as [|[dt|] evs IH]; intros s; simpl.
  - done.
  - by rewrite IH, advance_eq.
  - rewrite IH. unfold App_unmount. by destruct (cleanup s).
Qed.

Lemma Cancelled_eq s :
  Cancelled s → s = mkState (clock s) [] (next_id s) true None.
Proof. intros (Hl & Hc & Ht). destruct s; simpl in *. by subst. Qed.

(** C1: the loading flag of the root is [true] on activation; along any
    run it changes at most once, namely once when the run ends with the
    flag down; once [false] it stays [false] whatever happens next; and
    while the root stays mounted the flag is up exactly as long as fewer
    than 800 time units have passed, so the one change is the firing of
    the 800 ms timeout. *)
Theorem App_loading_flag (t0 n0 : nat) :
  isLoading (App_mount t0 n0) = true ∧
  (∀ evs,
      flips (isLoading <$> trace (App_mount t0 n0) evs)
      = if isLoading (run (App_mount t0 n0) evs) then 0 else 1) ∧
  (∀ evs evs',
      isLoading (run (App_mount t0 n0) evs) = false →
      isLoading (run (App_mount t0 n0) (evs ++ evs')) = false) ∧
  (∀ dts,
      isLoading (run (App_mount t0 n0) (Advance <$> dts))
      = bool_decide (sum_list dts < 800)).
Proof.
  split; [done|]. split; [|split].
  - intros evs. by rewrite flips_trace.
  - intros evs evs' H. rewrite run_app. by apply run_keeps_false.
  - intros dts.
    rewrite (run_advances (t0 + 800)); [|apply Live_mount|by eexists].
    apply bool_decide_ext. simpl. lia.
Qed.

(** C2: when the root is torn down before 800 time units have passed,
    the cleanup removes the pending timeout from the host's table, and
    whatever happens afterwards the loading flag is still [true] and no
    timer is pending: the state after the teardown differs from the
    state at the teardown by the reading of the clock only. *)
Theorem App_unmount_cancels_timer (t0 n0 : nat) (before after : list Event) :
  elapsed before < 800 →
  timers (run (App_mount t0 n0) (before ++ [Unmount])) = [] ∧
  isLoading (run (App_mount t0 n0) (before ++ Unmount :: after)) = true ∧
  timers (run (App_mount t0 n0) (before ++ Unmount :: after)) = [] ∧
  run (App_mount t0 n0) (before ++ Unmount :: after)
  = mkState (t0 + elapsed before + elapsed after) [] (S n0) true None.
Proof.
  intros Hlt.
  assert (HL : Live (t0 + 800) (run (App_mount t0 n0) before))
    by (apply Live_run; [apply Live_mount|simpl; lia]).
  apply unmount_cancels in HL.
  assert (HC : Cancelled (run (App_mount t0 n0) (before ++ Unmount :: after)))
    by (rewrite run_app; by apply (Cancelled_run _ after)).
  split; [rewrite run_app; apply HL|].
  split; [apply HC|]. split; [apply HC|].
  rewrite (Cancelled_eq _ HC), clock_run, next_id_run, elapsed_app.
  simpl. f_equal. lia.
Qed.

Lemma App_loading_flag_witness :
  isLoading (run (App_mount 0 0) ([Advance 800] ++ [Unmount; Advance 1])) = false.
Proof.
  apply (proj1 (proj2 (proj2 (App_loading_flag 0 0)))). reflexivity.
Defined.

Lemma App_unmount_cancels_timer_witness :
  elapsed [Advance 300; Advance 499] < 800 ∧
  timers (run (App_mount 0 1) ([Advance 300; Advance 499] ++ [Unmount])) = [] ∧
  isLoading (run (App_mount 0 1)
               ([Advance 300; Advance 499] ++ Unmount :: [Advance 5000])) = true ∧
  timers (run (App_mount 0 1)
            ([Advance 300; Advance 499] ++ Unmount :: [Advance 5000])) = [] ∧
  run (App_mount 0 1) ([Advance 300; Advance 499] ++ Unmount :: [Advance 5000])
  = mkState (0 + elapsed [Advance 300; Advance 499] + elapsed [Advance 5000])
      [] 2 true None.
Proof.
  split; [simpl; lia|].
  apply (App_unmount_cancels_timer 0 1 [Advance 300; Advance 499] [Advance 5000]).
  simpl; lia.
Defined.

(** The timer is pending just before the teardown and fires when the
    teardown does not happen. *)
Example App_timer_sample :
  timers (run (App_mount 0 1) [Advance 300; Advance 499]) = [mkTimer 1 800] ∧
  isLoading (run (App_mount 0 1) [Advance 300; Advance 499; Advance 1]) = false ∧
  phase (run (App_mount 0 1) [Advance 300; Advance 499; Advance 1]) = ready ∧
  flips (isLoading <$> trace (App_mount 0 1)
                         [Advance 300; Advance 499; Advance 1; Unmount; Advance 9])
  = 1.
Proof. by vm_compute. Qed.

(** The selection of the root: in every state of a run its render hands
    exactly one child to [AnimatePresence], the loading view when the
    flag is [true], the content view when it is [false]; right after
    mounting it is the loading view. *)
Lemma App_selects_one_view (t0 n0 : nat) (evs : list Event) (now : Page.Date) :
  let s := run (App_mount t0 n0) evs in
  views s now
    = [if isLoading s then ("Loader", "loader") else ("LandingPage", "landing")] ∧
  (("Loader", "loader") ∈ views s now ↔ isLoading s = true) ∧
  (("LandingPage", "landing") ∈ views s now ↔ isLoading s = false) ∧
  length (views s now) = 1 ∧
  views (App_mount t0 n0) now = [("Loader", "loader")].
Proof.
  intros s. unfold views.
  destruct (isLoading s); simpl;
    repeat split; try done; try (intros _; by apply list_elem_of_singleton);
    intros H; apply list_elem_of_singleton in H; congruence.
Qed.

End RootFacts.

(** ** The markup of the components *)

Section MarkupFacts.
Import Motion Markup Page.

(** C7: the content view has exactly one hyperlink; its destination is
    the GitHub profile URL, its target is a new browsing context
    ([_blank]) and its [rel] lists [noopener] and [noreferrer]. *)
Theorem LandingPage_outbound_link (now : Date) :
  ∃ a, elements_by_tag "a" (LandingPage now) = [a] ∧
       vprop "href" a = Some "https://github.com/teamssUTXO" ∧
       vprop "target" a = Some "_blank" ∧
       String.words <$> vprop "rel" a = Some ["noopener"; "noreferrer"].
Proof. eexists. split; [lazy; reflexivity|]. by vm_compute. Qed.

(** C8: the footer of the content view rendered at an instant shows the
    full year of that instant, between the copyright sign and the
    owner's name. *)
Theorem LandingPage_footer_year (now : Date) :
  ∃ f, elements_by_tag "footer" (LandingPage now) = [f] ∧
       vchildren f = [VText "© "; VNumber (getFullYear now);
                      VText " Timothé Fardella. All rights reserved."] ∧
       textContent f
       = "© " +:+ pretty (getFullYear now)
         +:+ " Timothé Fardella. All rights reserved.".
Proof. eexists. split; [lazy; reflexivity|]. by split. Qed.

(** C9: the spinner of the loading view is two rings.  The outer one is
    a motion element without any animation prop; the inner one declares
    a rotation to 360 degrees with a linear transition of duration 1
    that repeats without end. *)
Theorem Loader_spinner :
  ∃ wrap outer inner mo mi,
    vchildren Loader = [wrap] ∧
    vchildren wrap = [outer; inner] ∧
    vmotion outer = Some mo ∧ static mo = true ∧ transition mo = None ∧
    vmotion inner = Some mi ∧
    animate mi = Some (Values (mkTarget {[ "rotate" := 360%Q ]} None)) ∧
    transition mi
    = Some (mkTransition (Some 1%Q) (Some (EaseName "linear"))
              (Some RepeatInfinity) None None None).
Proof. do 5 eexists. repeat split. Qed.

(** C6: when the timeout fires, the root swaps the loading view for the
    content view.  The [exit] prop of the loading view carries a
    transition of 0.8 s with the [easeInOut] curve and nothing else: it
    names no property to animate, so the overlay, which starts at
    opacity 1, has no exit target to fade to.  The content view does
    declare its entrance: the container goes from opacity 0 to 1 and each
    item from 20 px below and opacity 0 to its place and opacity 1. *)
Theorem Loader_exit_animates_nothing (now : Date) :
  Root.views (Root.App_mount 0 0) now = [("Loader", "loader")] ∧
  Root.views (Root.run (Root.App_mount 0 0) [Root.Advance 800]) now
    = [("LandingPage", "landing")] ∧
  ∃ m e,
    vmotion Loader = Some m ∧
    initial m = Some (Values (mkTarget {[ "opacity" := 1%Q ]} None)) ∧
    exit m = Some (Values e) ∧
    target_transition e
    = Some (mkTransition (Some 0.8%Q) (Some (EaseName "easeInOut"))
              None None None None) ∧
    animated (Values e) (variants m) = ∅ ∧
    values <$> containerVariants !! "hidden" = Some {[ "opacity" := 0%Q ]} ∧
    values <$> containerVariants !! "visible" = Some {[ "opacity" := 1%Q ]} ∧
    values <$> itemVariants !! "hidden" = Some {[ "y" := 20%Q; "opacity" := 0%Q ]} ∧
    values <$> itemVariants !! "visible" = Some {[ "y" := 0%Q; "opacity" := 1%Q ]}.
Proof. do 2 (split; [done|]). do 2 eexists. repeat split. Qed.

Example LandingPage_footer_2026 :
  ∃ f, elements_by_tag "footer" (LandingPage (mkDate 2026 10 3)) = [f] ∧
       textContent f = "© 2026 Timothé Fardella. All rights reserved.".
Proof. eexists. split; [lazy; reflexivity|]. by vm_compute. Qed.

End MarkupFacts.

(** * Further properties *)

(** ** The metadata effect: what it depends on and what it leaves *)

Section MetadataMore.
Import Dom Page Census.

Lemma Node_children_ind (P : Node → Prop) :
  (∀ s, P (Text s)) →
  (∀ t a c, Forall P c → P (Elem t a c)) →
  ∀ n, P n.
Proof.
  intros HT HE. fix IH 1. intros [s|t a c]; [apply HT|].
  apply HE. induction c as [|x c IHc]; constructor; [apply IH|apply IHc].
Qed.

Lemma count_node_unfold s n :
  count_node s n
  = (if matches s n then 1 else 0) + count_forest s (node_children n).
Proof. by destruct n. Qed.

Lemma count_forest_lookup s f i x :
  f !! i = Some x → count_node s x ≤ count_forest s f.
Proof.
  intros H. apply sum_list_with_in. by eapply list_elem_of_lookup_2.
Qed.

Lemma count_forest_zero s f :
  count_forest s f = 0 ↔ ∀ k y, f !! k = Some y → count_node s y = 0.
Proof.
  unfold count_forest. induction f as [|x f IH]; simpl.
  - split; [|done]. intros _ k y. by rewrite lookup_nil.
  - split.
    + intros H [|k] y Hy; simpl in Hy.
      * injection Hy as <-. lia.
      * apply (proj1 IH ltac:(lia) k y Hy).
    + intros H. rewrite (H 0 x eq_refl).
      apply IH. intros k y Hy. by apply (H (S k)).
Qed.

(** A query finds nothing exactly where nothing matches. *)
Lemma query_node_None_count s n :
  query_node s n = None ↔ count_node s n = 0.
Proof.
  induction n as [d|t a c IH] using Node_children_ind; [done|].
  rewrite query_node_Elem, count_node_unfold. simpl node_children.
  destruct (matches s (Elem t a c)); [done|].
  rewrite Nat.add_0_l, query_from_None, count_forest_zero.
  rewrite Forall_lookup in IH.
  split; intros H k y Hy; apply (IH k y Hy), (H k y Hy).
Qed.

Lemma query_forest_None_count s f :
  query_forest s f = None ↔ count_forest s f = 0.
Proof.
  unfold query_forest. rewrite query_from_None, count_forest_zero.
  split; intros H k y Hy; apply query_node_None_count, (H k y Hy).
Qed.

Lemma count_forest_alter s h i f :
  (∀ x, f !! i = Some x → count_node s (h x) = count_node s x) →
  count_forest s (alter h i f) = count_forest s f.
Proof.
  unfold count_forest. revert i. induction f as [|x f IH]; intros [|i] H.
  - done.
  - done.
  - change (alter h 0 (x :: f)) with (h x :: f).
    cbn [sum_list_with]. by rewrite (H x eq_refl).
  - change (alter h (S i) (x :: f)) with (x :: alter h i f).
    cbn [sum_list_with]. rewrite IH; [done|]. intros y Hy. by apply H.
Qed.

(** An update the selector does not see keeps the number of matches. *)
Lemma count_update_node s g p n :
  keeps_match s g → keeps_children g →
  count_node s (update_node g p n) = count_node s n.
Proof.
  intros Hm Hc. revert n. induction p as [|i p IH]; intros n; simpl.
  - by rewrite !count_node_unfold, Hm, Hc.
  - destruct n as [d|t a c]; [done|].
    rewrite !count_node_unfold. simpl node_children.
    rewrite count_forest_alter by (intros x _; apply IH). done.
Qed.

Lemma count_update_at s g p f :
  keeps_match s g → keeps_children g →
  count_forest s (update_at g p f) = count_forest s f.
Proof.
  intros Hm Hc. destruct p as [|i p]; simpl; [done|].
  apply count_forest_alter. intros x _. by apply count_update_node.
Qed.

Lemma count_update_ref s g r d :
  keeps_match s g → keeps_children g →
  count_document s (update_ref g r d) = count_document s d.
Proof.
  intros Hm Hc. destruct r as [[] p]; unfold count_document, update_ref; simpl;
    by rewrite count_update_at.
Qed.

Lemma count_document_zero s d :
  querySelector s d = None ↔ count_document s d = 0.
Proof.
  rewrite querySelector_None, !query_forest_None_count.
  unfold count_document. lia.
Qed.

(** Writing a node with what it already holds changes nothing. *)
Lemma list_alter_fixed {A} (h : A → A) i (l : list A) x :
  l !! i = Some x → h x = x → alter h i l = l.
Proof.
  intros Hx Hh. apply list_eq. intros j.
  destruct (decide (i = j)) as [<-|Hne].
  - by rewrite list_lookup_alter_eq, Hx; simpl; rewrite Hh.
  - by rewrite list_lookup_alter_ne.
Qed.

Lemma update_node_fixed g p n m :
  sub_node p n = Some m → g m = m → update_node g p n = n.
Proof.
  revert n. induction p as [|i p IH]; intros n Hs Hg; simpl in *.
  - by simplify_eq.
  - destruct n as [d|t a c]; [done|]. simpl in Hs.
    destruct (c !! i) as [x|] eqn:Hx; [|done]. simpl in Hs.
    f_equal. apply (list_alter_fixed _ _ _ x Hx). by apply IH.
Qed.

Lemma update_ref_fixed g r d m :
  deref r d = Some m → g m = m → update_ref g r d = d.
Proof.
  destruct r as [[] [|i p]], d as [t h b]; unfold deref, update_ref; simpl;
    try done; intros Hs Hg;
    (destruct (_ !! i) as [x|] eqn:Hx; [|done]); simpl in Hs;
    f_equal; apply (list_alter_fixed _ _ _ x Hx);
    by apply (update_node_fixed g p x m).
Qed.

(** Two writes through one reference are the write of the composition. *)
Lemma update_node_compose g h p n :
  update_node g p (update_node h p n) = update_node (g ∘ h) p n.
Proof.
  revert n. induction p as [|i p IH]; intros n; simpl; [done|].
  destruct n as [d|t a c]; [done|].
  f_equal. rewrite list_alter_alter_eq.
  apply list_alter_ext; [|done]. intros x _. apply IH.
Qed.

Lemma update_node_ext g h p n :
  (∀ m, g m = h m) → update_node g p n = update_node h p n.
Proof.
  intros Hgh. revert n. induction p as [|i p IH]; intros n; simpl; [done|].
  destruct n as [d|t a c]; [done|].
  f_equal. apply list_alter_ext; [|done]. intros x _. apply IH.
Qed.

Lemma update_ref_absorb g h r d :
  (∀ m, g (h m) = g m) →
  update_ref g r (update_ref h r d) = update_ref g r d.
Proof.
  intros Hgh.
  destruct r as [[] [|i p]]; unfold update_ref; simpl; try done;
    f_equal; rewrite list_alter_alter_eq; (apply list_alter_ext; [|done]);
    intros x _; simpl; rewrite update_node_compose;
    by apply update_node_ext.
Qed.

Lemma set_title_update_ref t g r d :
  set_title t (update_ref g r d) = update_ref g r (set_title t d).
Proof. by destruct r as [[] p]. Qed.

Lemma write_content_keeps_children : keeps_children write_content.
Proof. apply setAttribute_keeps_children. Qed.

Lemma write_content_absorbs v m :
  write_content (setAttribute "content" v m) = write_content m.
Proof. destruct m as [d|t a c]; simpl; [done|]. by rewrite insert_insert_eq. Qed.

(** Where the description element is once the effect has run: where
    the first one was, or at the end of the head. *)
Lemma querySelector_after_effect d :
  querySelector meta_description (LandingPage_effect d)
  = Some (default (mkRef InHead [length (head d)])
            (querySelector meta_description d)).
Proof.
  destruct (querySelector meta_description d) as [r|] eqn:Hq; simpl.
  - rewrite (LandingPage_effect_present d r Hq).
    by apply querySelector_update_ref; [apply write_content_keeps_match|].
  - rewrite (LandingPage_effect_absent d Hq).
    by apply (querySelector_appended (set_title page_title d)).
Qed.

Lemma description_after_effect d :
  description (LandingPage_effect d) = Some page_description.
Proof.
  unfold description. rewrite querySelector_after_effect. simpl.
  destruct (querySelector meta_description d) as [r|] eqn:Hq; simpl.
  - rewrite (LandingPage_effect_present d r Hq), deref_update_ref_eq.
    destruct (querySelector_sound _ _ _ Hq) as (m & Hm & Hmatch).
    change (deref r (set_title page_title d)) with (deref r d).
    rewrite Hm. simpl. destruct m as [s|t a c]; [done|].
    simpl. by rewrite lookup_insert_eq.
  - rewrite (LandingPage_effect_absent d Hq).
    unfold deref. simpl. by rewrite list_lookup_middle.
Qed.

Lemma title_after_effect d : title (LandingPage_effect d) = page_title.
Proof.
  destruct (querySelector meta_description d) as [r|] eqn:Hq.
  - rewrite (LandingPage_effect_present d r Hq). by destruct r as [[] p].
  - by rewrite (LandingPage_effect_absent d Hq).
Qed.

(** X1: the effect leaves a document as it is exactly when the document
    already has the page's title and its first description meta element
    already holds the page's description. *)
Theorem LandingPage_effect_fixed_point (d : Document) :
  LandingPage_effect d = d ↔
  title d = page_title ∧ description d = Some page_description.
Proof.
  split.
  - intros H. rewrite <- H at 1 2.
    split; [apply title_after_effect|apply description_after_effect].
  - intros [Ht Hd]. unfold description in Hd.
    destruct (querySelector meta_description d) as [r|] eqn:Hq; [|done].
    simpl in Hd. destruct (deref r d) as [m|] eqn:Hm; [|done]. simpl in Hd.
    rewrite (LandingPage_effect_present d r Hq).
    assert (Hset : set_title page_title d = d)
      by (destruct d; simpl in *; by subst).
    rewrite Hset. apply (update_ref_fixed _ _ _ m Hm).
    destruct m as [s|t a c]; [done|]. simpl in *.
    by rewrite insert_id.
Qed.

(** X2: the result of the effect does not depend on the title the
    document had, nor on the content its first description meta element
    had: overwriting either beforehand changes nothing afterwards. *)
Theorem LandingPage_effect_overwrites (d : Document) (t v : string) (r : Ref) :
  querySelector meta_description d = Some r →
  LandingPage_effect (update_ref (setAttribute "content" v) r (set_title t d))
  = LandingPage_effect d.
Proof.
  intros Hq.
  assert (Hq' : querySelector meta_description
                  (update_ref (setAttribute "content" v) r (set_title t d))
                = Some r).
  { apply querySelector_update_ref; [by apply setAttribute_keeps_match|done]. }
  rewrite (LandingPage_effect_present _ r Hq'), (LandingPage_effect_present d r Hq).
  rewrite set_title_update_ref.
  change (set_title page_title (set_title t d)) with (set_title page_title d).
  apply update_ref_absorb, write_content_absorbs.
Qed.

Lemma LandingPage_effect_overwrites_witness :
  querySelector meta_description Samples.sample_document
    = Some (mkRef InBody [0; 1]) ∧
  LandingPage_effect
    (update_ref (setAttribute "content" "draft") (mkRef InBody [0; 1])
       (set_title "Draft" Samples.sample_document))
  = LandingPage_effect Samples.sample_document.
Proof.
  split; [reflexivity|].
  apply (LandingPage_effect_overwrites Samples.sample_document "Draft" "draft"
           (mkRef InBody [0; 1])).
  reflexivity.
Defined.

(** X3: the effect never removes a description meta element and never
    adds one to a document that has one: afterwards the document has as
    many as before, or one when it had none. *)
Theorem LandingPage_effect_count (d : Document) :
  count_document meta_description (LandingPage_effect d)
  = Nat.max 1 (count_document meta_description d).
Proof.
  destruct (querySelector meta_description d) as [r|] eqn:Hq.
  - rewrite (LandingPage_effect_present d r Hq).
    rewrite count_update_ref
      by (apply write_content_keeps_match || apply write_content_keeps_children).
    change (count_document meta_description (set_title page_title d))
      with (count_document meta_description d).
    destruct (count_document meta_description d) as [|k] eqn:Hc; [|lia].
    apply count_document_zero in Hc. congruence.
  - rewrite (LandingPage_effect_absent d Hq).
    pose proof (proj1 (querySelector_None _ _) Hq) as [Hh Hb].
    apply query_forest_None_count in Hh, Hb.
    rewrite (proj1 (count_document_zero _ _) Hq).
    unfold count_document, appendChild_head, count_forest in *. simpl.
    rewrite sum_list_with_app, Hh, Hb. reflexivity.
Qed.

(** X4: after the effect the first description meta element of the
    document sits where the first one sat before; when there was none
    it is the last child of the head. *)
Theorem LandingPage_effect_position (d : Document) :
  querySelector meta_description (LandingPage_effect d)
  = Some (default (mkRef InHead [length (head d)])
            (querySelector meta_description d)) ∧
  length (head (LandingPage_effect d))
  = length (head d)
    + match querySelector meta_description d with Some _ => 0 | None => 1 end ∧
  length (body (LandingPage_effect d)) = length (body d).
Proof.
  split; [apply querySelector_after_effect|].
  destruct (querySelector meta_description d) as [r|] eqn:Hq.
  - rewrite (LandingPage_effect_present d r Hq).
    destruct r as [[] [|i p]]; unfold update_ref; simpl;
      rewrite ?length_alter; lia.
  - rewrite (LandingPage_effect_absent d Hq). simpl.
    rewrite length_app. simpl. lia.
Qed.

(** X5: when the head holds no description meta element but the body
    does, the effect writes the one in the body and leaves the head as
    it was: the head still has no description afterwards. *)
Theorem LandingPage_effect_body_only (d : Document) (p : Path) :
  query_forest meta_description (head d) = None →
  query_forest meta_description (body d) = Some p →
  head (LandingPage_effect d) = head d ∧
  query_forest meta_description (head (LandingPage_effect d)) = None ∧
  body (LandingPage_effect d) = update_at write_content p (body d) ∧
  (node_at p (body (LandingPage_effect d)) ≫= getAttribute "content")
  = Some page_description.
Proof.
  intros Hh Hb.
  assert (Hq : querySelector meta_description d = Some (mkRef InBody p))
    by (unfold querySelector; by rewrite Hh, Hb).
  pose proof (description_after_effect d) as Hd.
  unfold description in Hd. rewrite querySelector_after_effect, Hq in Hd.
  rewrite (LandingPage_effect_present d _ Hq) in *.
  by repeat split.
Qed.

Lemma LandingPage_effect_body_only_witness :
  query_forest meta_description (head Samples.sample_document) = None ∧
  query_forest meta_description (body Samples.sample_document) = Some [0; 1] ∧
  head (LandingPage_effect Samples.sample_document)
    = head Samples.sample_document ∧
  query_forest meta_description (head (LandingPage_effect Samples.sample_document))
    = None.
Proof.
  split; [reflexivity|]. split; [reflexivity|].
  pose proof (LandingPage_effect_body_only Samples.sample_document [0; 1]
                eq_refl eq_refl) as (H1 & H2 & _).
  exact (conj H1 H2).
Defined.

End MetadataMore.

(** ** The root component: every run, unmounts and replays included *)

Section RootMore.
Import Root Effect.

Lemma filter_Forall_id {A} (P : A → Prop) `{∀ x, Decision (P x)} (l : list A) :
  Forall P l → filter P l = l.
Proof.
  induction 1 as [|x l Hx _ IH]; [done|].
  by rewrite filter_cons_True, IH.
Qed.

Lemma Cancelled_Live d s : Cancelled s → clock s < d → Live d s.
Proof. intros (Hl & Hc & Ht) Hlt. repeat split; [done|done|by right]. Qed.

(** The flag along any run from an armed state: it is up as long as
    the time that passed before the first unmount is short of the
    deadline. *)
Lemma run_flag d s evs :
  Live d s → is_Some (cleanup s) →
  isLoading (run s evs) = bool_decide (clock s + elapsed_mounted evs < d).
Proof.
  revert s. induction evs as [|[dt|] evs IH]; intros s H Hm; simpl.
  - destruct H as (Hl & Hc & _). rewrite Hl.
    symmetry. apply bool_decide_eq_true. lia.
  - destruct (decide (clock s + dt < d)) as [Hlt|Hge].
    + rewrite IH.
      * rewrite advance_eq. simpl. apply bool_decide_ext. lia.
      * by apply Live_advance.
      * by rewrite advance_eq.
    + rewrite run_keeps_false
        by (apply (advance_fires d); [done|done|lia]).
      symmetry. apply bool_decide_eq_false. lia.
  - pose proof (Cancelled_run _ evs (unmount_cancels d s H)) as (Hl & _).
    rewrite Hl. destruct H as (_ & Hc & _).
    symmetry. apply bool_decide_eq_true. lia.
Qed.

Lemma Idle_step s e : Idle s → Idle (step s e).
Proof.
  intros [Ht Hc]. destruct e as [dt|]; simpl.
  - rewrite advance_eq, Ht. by split.
  - unfold App_unmount. destruct (cleanup s) as [id|] eqn:Hid; [|by split].
    split; simpl; [by rewrite Ht|done].
Qed.

Lemma Live_or_Idle_step d s e :
  Live d s ∨ Idle s → Live d (step s e) ∨ Idle (step s e).
Proof.
  intros [H|H]; [|right; by apply Idle_step].
  destruct e as [dt|]; simpl.
  - destruct (decide (clock s + dt < d)) as [Hlt|Hge].
    + left. by apply Live_advance.
    + right. destruct H as (Hl & Hc & Ht). rewrite advance_eq.
      destruct Ht as [(id & Hid & Ht)|[Hid Ht]]; rewrite Ht.
      * rewrite filter_cons_False by (simpl; lia).
        rewrite filter_cons_True by (simpl; lia). by split.
      * by split.
  - left. by apply Live_unmount.
Qed.

Lemma Live_or_Idle_run d s evs :
  Live d s ∨ Idle s → Live d (run s evs) ∨ Idle (run s evs).
Proof.
  revert s. induction evs as [|e evs IH]; intros s H; simpl; [done|].
  by apply IH, Live_or_Idle_step.
Qed.

(** The cleanup slot holds the identifier of the mount until it is
    emptied. *)
Lemma cleanup_run s evs : cleanup (run s evs) = cleanup s ∨ cleanup (run s evs) = None.
Proof.
  revert s. induction evs as [|[dt|] evs IH]; intros s; simpl.
  - by left.
  - destruct (IH (advance dt s)) as [->| ->]; [left|by right].
    by rewrite advance_eq.
  - destruct (IH (App_unmount s)) as [->| ->]; [|by right].
    unfold App_unmount. destruct (cleanup s) eqn:Hc; [by right|].
    left. by rewrite Hc.
Qed.

(** An unmounted state with nothing pending only sees its clock move. *)
Lemma frozen_run s evs :
  timers s = [] → cleanup s = None →
  run s evs = at_clock (clock s + elapsed evs) s.
Proof.
  revert s. induction evs as [|[dt|] evs IH]; intros s Ht Hc; simpl.
  - destruct s; simpl in *. unfold at_clock. simpl. f_equal. lia.
  - rewrite IH; rewrite advance_eq, ?Ht; simpl; try done.
    unfold at_clock. simpl. rewrite Ht. f_equal. lia.
  - unfold App_unmount. rewrite Hc. by apply IH.
Qed.

Lemma unmount_settles d s :
  Live d s ∨ Idle s →
  App_unmount s = mkState (clock s) [] (next_id s) (isLoading s) None.
Proof.
  intros [(Hl & Hc & Ht)|[Ht Hc]]; unfold App_unmount.
  - destruct Ht as [(id & Hid & Ht)|[Hid Ht]]; rewrite Hid.
    + unfold clearTimeout. simpl. rewrite Ht.
      by rewrite filter_cons_False by (by intros []).
    + destruct s; simpl in *. by subst.
  - destruct (cleanup s) as [id|] eqn:Hid.
    + unfold clearTimeout. simpl. by rewrite Ht.
    + destruct s; simpl in *. by subst.
Qed.

Lemma timers_of_state d id s :
  Live d s ∨ Idle s → cleanup s = Some id ∨ cleanup s = None →
  timers s
  = if isLoading s && bool_decide (cleanup s = Some id)
    then [mkTimer id d] else [].
Proof.
  intros [(Hl & _ & Ht)|[Ht Hi]] Hc.
  - rewrite Hl. simpl.
    destruct Ht as [(id' & Hid & Ht)|[Hid Ht]]; rewrite Ht.
    + destruct Hc as [Hc|Hc]; [|congruence].
      rewrite bool_decide_eq_true_2 by done. congruence.
    + by rewrite bool_decide_eq_false_2 by congruence.
  - rewrite Ht. destruct (isLoading s); simpl; [|done].
    by rewrite bool_decide_eq_false_2 by (rewrite Hi; done).
Qed.

Lemma mount_flag t0 n0 evs :
  isLoading (run (App_mount t0 n0) evs)
  = bool_decide (elapsed_mounted evs < 800).
Proof.
  rewrite (run_flag (t0 + 800)); [|apply Live_mount|by eexists].
  apply bool_decide_ext. simpl. lia.
Qed.

Lemma mount_unmount t0 n0 before after :
  run (App_mount t0 n0) (before ++ Unmount :: after)
  = mkState (t0 + elapsed before + elapsed after) [] (S n0)
      (isLoading (run (App_mount t0 n0) before)) None.
Proof.
  rewrite run_app. simpl.
  rewrite (unmount_settles (t0 + 800))
    by (apply Live_or_Idle_run; left; apply Live_mount).
  rewrite frozen_run by done. unfold at_clock. simpl.
  rewrite clock_run, next_id_run. simpl. done.
Qed.

(** X6: in every run, unmounts included, the loading flag is [true]
    exactly when less than 800 ms passed between the mount and the first
    unmount (or the end of the run): the loader is never cut short of
    its 800 ms while the root is mounted, and a teardown before the
    deadline keeps the flag up for good. *)
Theorem App_flag_of_run (t0 n0 : nat) (evs : list Event) :
  isLoading (run (App_mount t0 n0) evs)
  = bool_decide (elapsed_mounted evs < 800).
Proof. apply mount_flag. Qed.

(** X7: in every run at most one timer is pending, the one armed at
    mount; it is pending exactly while the flag is up and the root is
    mounted, so none is left behind once it has fired or the root is
    gone. *)
Theorem App_timers_of_run (t0 n0 : nat) (evs : list Event) :
  let s := run (App_mount t0 n0) evs in
  timers s
  = (if isLoading s && bool_decide (cleanup s = Some n0)
     then [mkTimer n0 (t0 + 800)] else []) ∧
  (cleanup s = Some n0 ∨ cleanup s = None) ∧
  next_id s = S n0.
Proof.
  intros s.
  assert (Hc : cleanup s = Some n0 ∨ cleanup s = None)
    by apply (cleanup_run (App_mount t0 n0) evs).
  split; [|split; [done|apply (next_id_run (App_mount t0 n0) evs)]].
  apply timers_of_state; [|done].
  apply Live_or_Idle_run. left. apply Live_mount.
Qed.

(** X8: a teardown at any time freezes the root: the flag keeps the
    value it had, the timer table is empty, and later events move the
    clock only. *)
Theorem App_unmount_freezes (t0 n0 : nat) (before after : list Event) :
  run (App_mount t0 n0) (before ++ Unmount :: after)
  = mkState (t0 + elapsed before + elapsed after) [] (S n0)
      (isLoading (run (App_mount t0 n0) before)) None.
Proof. apply mount_unmount. Qed.

(** X9: the cleanup undoes the effect.  On a host whose pending timers
    all carry identifiers handed out earlier, running the effect and
    then its cleanup leaves the timer table, the clock and the flag as
    they were; only the identifier counter has moved. *)
Theorem App_effect_cleanup (s : State) :
  fresh_ids s →
  App_unmount (App_effect s)
  = mkState (clock s) (timers s) (S (next_id s)) (isLoading s) None.
Proof.
  intros Hf. unfold App_unmount, App_effect, clearTimeout. simpl.
  rewrite filter_app, filter_cons_False by (simpl; by intros []).
  rewrite filter_nil, app_nil_r.
  rewrite filter_Forall_id; [done|].
  eapply Forall_impl; [exact Hf|]. simpl. intros t Ht. lia.
Qed.

Lemma App_effect_cleanup_witness :
  fresh_ids (mkState 10 [mkTimer 0 50; mkTimer 2 90] 3 true None) ∧
  App_unmount (App_effect (mkState 10 [mkTimer 0 50; mkTimer 2 90] 3 true None))
  = mkState 10 [mkTimer 0 50; mkTimer 2 90] 4 true None.
Proof.
  assert (Hf : fresh_ids (mkState 10 [mkTimer 0 50; mkTimer 2 90] 3 true None))
    by (repeat constructor; simpl; lia).
  split; [exact Hf|].
  exact (App_effect_cleanup _ Hf).
Defined.

(** X10: replaying the effect after a teardown (mount, cleanup, effect
    again) arms exactly one new timer, due 800 ms after the replay, and
    from there the flag behaves as after a mount: it is [true] exactly
    when it was still up at the teardown and less than 800 ms of mounted
    time have passed since the replay. *)
Theorem App_effect_replay (t0 n0 : nat) (before evs : list Event) :
  let s := App_effect (run (App_mount t0 n0) (before ++ [Unmount])) in
  timers s = [mkTimer (S n0) (t0 + elapsed before + 800)] ∧
  cleanup s = Some (S n0) ∧
  isLoading (run s evs)
  = bool_decide (elapsed_mounted before < 800)
    && bool_decide (elapsed_mounted evs < 800).
Proof.
  intros s. subst s.
  pose proof (mount_unmount t0 n0 before []) as Hs.
  rewrite Hs. rewrite mount_flag. simpl. rewrite Nat.add_0_r.
  split; [done|]. split; [done|].
  destruct (bool_decide (elapsed_mounted before < 800)) eqn:Hb; simpl.
  - rewrite (run_flag (t0 + elapsed before + 800)).
    + apply bool_decide_ext. simpl. lia.
    + repeat split; simpl; [lia|]. left. by eexists.
    + by eexists.
  - by apply run_keeps_false.
Qed.

End RootMore.

(** ** Rendering and the date *)

Section RenderMore.
Import Motion Markup Page.

Lemma string_app_nil_r (a : string) : a +:+ "" = a.
Proof. induction a as [|c a IH]; [done|]. exact (f_equal (String c) IH). Qed.

Lemma string_app_assoc (a b c : string) : (a +:+ b) +:+ c = a +:+ (b +:+ c).
Proof. induction a as [|x a IH]; [done|]. exact (f_equal _ IH). Qed.

Lemma string_length_app (a b : string) :
  String.length (a +:+ b) = String.length a + String.length b.
Proof. induction a as [|x a IH]; [done|]. exact (f_equal _ IH). Qed.

Lemma string_app_inv_tail (a b s : string) : a +:+ s = b +:+ s → a = b.
Proof.
  revert b. induction a as [|x a IH]; intros [|y b] H.
  - done.
  - apply (f_equal String.length) in H.
    rewrite !string_length_app in H. simpl in H. lia.
  - apply (f_equal String.length) in H.
    rewrite !string_length_app in H. simpl in H. lia.
  - change (String x (a +:+ s) = String y (b +:+ s)) in H.
    injection H as -> H. f_equal. by apply IH.
Qed.

(** The text of the content view: fixed text around the year. *)
Lemma textContent_LandingPage now :
  textContent (LandingPage now)
  = "Under ConstructionSomething bold is coming.My new blockchain portfolio website is currently being crafted with care. Check back soon for updates.Follow on GitHub© "
    +:+ (pretty (getFullYear now) +:+ " Timothé Fardella. All rights reserved.").
Proof.
  unfold LandingPage. cbn [textContent foldr].
  rewrite !string_app_nil_r. rewrite !string_app_assoc. reflexivity.
Qed.

(** X11: what the root renders depends on the instant through the year
    only: two renders are the same tree exactly when the loader is
    showing or the two instants have the same full year. *)
Theorem App_render_year (b : bool) (now1 now2 : Date) :
  App_render b now1 = App_render b now2 ↔
  b = true ∨ getFullYear now1 = getFullYear now2.
Proof.
  split.
  - destruct b; [by left|]. intros H. right.
    apply (f_equal (λ t, elements_by_tag "footer" t ≫= vchildren)) in H.
    vm_compute in H. by injection H.
  - intros [->|Hy]; [done|].
    unfold App_render, LandingPage. by rewrite Hy.
Qed.

(** X12: the text the content view displays determines the year and is
    determined by it: the year is shown in decimal, and two renders
    show the same text exactly when their instants have the same full
    year. *)
Theorem LandingPage_text_year (now1 now2 : Date) :
  textContent (LandingPage now1) = textContent (LandingPage now2) ↔
  getFullYear now1 = getFullYear now2.
Proof.
  rewrite !textContent_LandingPage. split.
  - intros H. apply String.app_inj in H.
    apply string_app_inv_tail in H. by apply pretty_Z_inj in H.
  - by intros ->.
Qed.

End RenderMore.

(** ** The page as a whole: when the document is written *)

Section WholeFacts.
Import Dom Page Root Effect Whole.



(** The content view is selected exactly as the render of the root
    says. *)
Lemma selects_landing_views r now :
  selects_landing r = true → views r now = [("LandingPage", "landing")].
Proof.
  intros [_ Hl%negb_true_iff]%andb_true_iff. unfold views. by rewrite Hl.
Qed.














End WholeFacts.

(** ** Which views are mounted *)

Section PresenceFacts.
Import Dom Page Root Effect Whole Presence.

Lemma page_stage_run st evs : page (stage_run st evs) = sys_run (page st) evs.
Proof.
  revert st. induction evs as [|ev evs IH]; intros st; simpl; [done|].
  by rewrite IH.
Qed.







End PresenceFacts.
